(** * Leaky integrate-and-fire phase locking (Brette 2004)

    A shallow embedding of [neurons/Romain_2004_LIF_phase_locking.py].

    The script keeps its parameters in module-level globals ([num], [tau],
    [Vth], [Vr], [inputs]), defines one class [LIF] with two array-valued
    fields ([V], [spike]), a [derivative] method and an [update] method, and
    finally post-processes the recorded spikes into phases.

    Modelling choices:
    - a one-dimensional float array is a [list R]: the floating-point numbers
      of the script are read as the real numbers they stand for;
    - a boolean array (the result of [V >= Vth] or [spike > 0.]) is a
      [list bool];
    - the module-level globals and the [LIF] object together form the
      [Store] that [update] reads and writes;
    - [bp.odeint], the stepping driver and [raster_plot] belong to the
      BrainPy library, not to the script: the integrator is a parameter of
      the model, with explicit Euler as the instance the library uses by
      default. *)

From Stdlib Require Import Reals Lra Lia List ZArith Bool.
Import ListNotations.
Open Scope R_scope.

(** ** Array primitives *)

Module Array.

(** Comparisons of two floats, as booleans. *)
Definition Rgeb (x y : R) : bool := if Rge_dec x y then true else false.
Definition Rgtb (x y : R) : bool := if Rgt_dec x y then true else false.

(** Elementwise binary operation on two arrays of the same shape. *)
Fixpoint zipWith {A B C : Type} (f : A -> B -> C) (xs : list A) (ys : list B)
  : list C :=
  match xs, ys with
  | x :: xs', y :: ys' => f x y :: zipWith f xs' ys'
  | _, _ => []
  end.

(** [bm.zeros(size)] *)
Definition zeros (size : nat) : list R := repeat 0 size.

(** [bm.linspace(start, stop, num)], end point included. *)
Definition linspace (start stop : R) (num : nat) : list R :=
  let div := (num - 1)%nat in
  let delta := stop - start in
  map (fun i => if (0 <? div)%nat
                then start + INR i * (delta / INR div)
                else start + INR i * delta)
      (seq 0 num).

(** [-a] *)
Definition neg (a : list R) : list R := map Ropp a.
(** [a + b], two arrays *)
Definition add (a b : list R) : list R := zipWith Rplus a b.
(** [a + c], [c] a scalar *)
Definition add_scalar (a : list R) (c : R) : list R := map (fun x => x + c) a.
(** [a * c], [c] a scalar *)
Definition mul_scalar (a : list R) (c : R) : list R := map (fun x => x * c) a.
(** [a / c], [c] a scalar *)
Definition div_scalar (a : list R) (c : R) : list R := map (fun x => x / c) a.
(** [a >= c], [c] a scalar *)
Definition ge_scalar (a : list R) (c : R) : list bool := map (fun x => Rgeb x c) a.
(** [a > c], [c] a scalar *)
Definition gt_scalar (a : list R) (c : R) : list bool := map (fun x => Rgtb x c) a.
(** [bm.asarray(m, dtype=bm.float_)] on a boolean array *)
Definition asfloat (m : list bool) : list R :=
  map (fun b : bool => if b then 1 else 0) m.
(** [bm.where(cond, c, a)], [c] a scalar *)
Definition where_ (cond : list bool) (c : R) (a : list R) : list R :=
  zipWith (fun (b : bool) x => if b then c else x) cond a.

(** [x % y] on floats: the remainder has the sign of the divisor. *)
Definition Rmod (x y : R) : R := x - IZR (Zfloor (x / y)) * y.
(** [a % c], [c] a scalar *)
Definition mod_scalar (a : list R) (c : R) : list R := map (fun x => Rmod x c) a.

(** Positions of the [true] entries of a boolean array, counted from [k]. *)
Fixpoint nonzero_from (k : nat) (m : list bool) : list nat :=
  match m with
  | [] => []
  | b :: m' => if b then k :: nonzero_from (S k) m' else nonzero_from (S k) m'
  end.

End Array.
Import Array.

(** ** Parameters and state *)

(** The module-level globals of the script. *)
Record Globals : Type := mkGlobals {
  num : nat;
  tau : R;
  Vth : R;
  Vr : R;
  inputs : list R
}.

(** The values the script assigns (lines 38-42); the population size is kept
    as an argument, the script uses [script_globals 2000]. *)
Definition script_globals (n : nat) : Globals :=
  {| num := n; tau := 100; Vth := 1; Vr := 0; inputs := linspace 2 4 n |}.

(** The two [bm.Variable] fields of a [LIF] object. *)
Record LIF : Type := mkLIF {
  V : list R;
  spike : list R
}.

(** Everything [update] can see: the globals and the object itself. *)
Record Store : Type := mkStore {
  globals : Globals;
  group : LIF
}.

(** [LIF.__init__(size)] *)
Definition LIF_init (size : nat) : LIF :=
  {| V := zeros size; spike := zeros size |}.

(** [LIF.derivative(V, t)]:
    [(-V + inputs + 2 * bm.sin(2 * bm.pi * t / tau)) / tau] *)
Definition derivative (g : Globals) (V : list R) (t : R) : list R :=
  div_scalar
    (add_scalar (add (neg V) (inputs g)) (2 * sin (2 * PI * t / tau g)))
    (tau g).

(** Modelled from the spec: the fixed-step scheme of section 4.1, explicit
    Euler with step [dt], which is what [bp.odeint] builds when no method is
    named: [V + f(V, t) * dt]. *)
Definition euler (dt : R) (f : list R -> R -> list R) (V : list R) (t : R)
  : list R :=
  add V (mul_scalar (f V t) dt).

(** Modelled from the spec: the step size of the scenario of section 8, which
    is also the one the library uses when none is configured. *)
Definition default_dt : R := 1 / 10.

Section Model.

(** [bp.odeint]: turns a right-hand side into a one-step integrator.  The
    step size is fixed when the integrator is built. *)
Variable odeint : (list R -> R -> list R) -> list R -> R -> list R.

(** The candidate potential [self.integral(self.V, _t)]. *)
Definition candidate (st : Store) (_t : R) : list R :=
  odeint (derivative (globals st)) (V (group st)) _t.

(** [LIF.update(_t, _dt)]; [_dt] is received and not used. *)
Definition update (st : Store) (_t _dt : R) : Store :=
  let g := globals st in
  let self := group st in
  let V' := odeint (derivative g) (V self) _t in
  let self := {| V := V self; spike := asfloat (ge_scalar V' (Vth g)) |} in
  let self := {| V := where_ (gt_scalar (spike self) 0) (Vr g) V';
                 spike := spike self |} in
  {| globals := g; group := self |}.

(** Modelled from the spec: the stepping driver (section 4.2), which calls
    [update] once per time point, in order, and records the spike vector
    after each call together with the time of the call.  The result is the
    final store and the monitor. *)
Fixpoint run (st : Store) (ts : list R) (dt : R)
  : Store * list (R * list R) :=
  match ts with
  | [] => (st, [])
  | t :: ts' =>
      let st' := update st t dt in
      let (final, mon) := run st' ts' dt in
      (final, (t, spike (group st')) :: mon)
  end.

(** The store before step [k] of a run over the time points [ts]. *)
Definition state_at (st : Store) (ts : list R) (dt : R) (k : nat) : Store :=
  fst (run st (firstn k ts) dt).

(** Stores that a sequence of [update] calls can produce from [st0]. *)
Inductive reachable (st0 : Store) : Store -> Prop :=
| reach_init : reachable st0 st0
| reach_step : forall st t dt,
    reachable st0 st -> reachable st0 (update st t dt).

End Model.

(** The time points of a run of [n] steps from [t0]: [t0 + k * dt]. *)
Definition arange (t0 dt : R) (n : nat) : list R :=
  map (fun k => t0 + INR k * dt) (seq 0 n).

(** Modelled from the spec: the extraction of (unit-index, spike-time) events
    from the monitor (section 4.3): one event for each positive entry, row by
    row. *)
Definition raster_plot (mon : list (R * list R)) : list (nat * R) :=
  flat_map (fun rec : R * list R =>
              map (fun i => (i, fst rec)) (nonzero_from 0 (gt_scalar (snd rec) 0)))
           mon.

(** [spike_phases = (times % tau) / tau] (line 74), as a function of the
    period. *)
Definition spike_phases (period : R) (times : list R) : list R :=
  div_scalar (mod_scalar times period) period.

(** The end-to-end scenario of the spec: one unit with drive 3. *)
Definition scenario_globals : Globals :=
  {| num := 1; tau := 100; Vth := 1; Vr := 0; inputs := [3] |}.

(** [a[idx]], an array indexed by an array of positions (line 75).  A
    position past the end has no value: the result is [None]. *)
Fixpoint take (a : list R) (idx : list nat) : option (list R) :=
  match idx with
  | [] => Some []
  | i :: idx' =>
      match nth_error a i, take a idx' with
      | Some x, Some xs => Some (x :: xs)
      | _, _ => None
      end
  end.

(** Lines 64-75 of the script, for a population of [n] units and a run of
    [steps] steps: build the group, run it with the spike monitor, extract the
    events, and compute the two coordinates of the scatter plot,
    [spike_phases] and [params = inputs[indices]]. *)
Definition script_scatter (n steps : nat) : option (list R * list R) :=
  let g := script_globals n in
  let st := mkStore g (LIF_init (num g)) in
  let mon := snd (run (euler default_dt) st (arange 0 default_dt steps)
                      default_dt) in
  let events := raster_plot mon in
  let indices := map fst events in
  let times := map snd events in
  match take (inputs g) indices with
  | Some params => Some (spike_phases (tau g) times, params)
  | None => None
  end.

(** ** Lemmas on the array primitives *)

Lemma Rgeb_true (x y : R) : Rgeb x y = true <-> x >= y.
Proof. unfold Rgeb; destruct (Rge_dec x y); split; intros; try easy. Qed.

Lemma Rgeb_false (x y : R) : Rgeb x y = false <-> x < y.
Proof.
  unfold Rgeb; destruct (Rge_dec x y); split; intros; try easy; lra.
Qed.

Lemma Rgtb_true (x y : R) : Rgtb x y = true <-> x > y.
Proof. unfold Rgtb; destruct (Rgt_dec x y); split; intros; try easy. Qed.

Lemma Rgtb_false (x y : R) : Rgtb x y = false <-> x <= y.
Proof.
  unfold Rgtb; destruct (Rgt_dec x y); split; intros; try easy; lra.
Qed.

Lemma zipWith_nth_error {A B C} (f : A -> B -> C) xs ys i x y :
  nth_error xs i = Some x -> nth_error ys i = Some y ->
  nth_error (zipWith f xs ys) i = Some (f x y).
Proof.
  revert ys i; induction xs as [|a xs IH]; intros [|b ys] [|i]; simpl;
    try discriminate.
  - now intros [= ->] [= ->].
  - apply IH.
Qed.

Lemma zipWith_length {A B C} (f : A -> B -> C) xs ys :
  length (zipWith f xs ys) = Nat.min (length xs) (length ys).
Proof.
  revert ys; induction xs as [|a xs IH]; intros [|b ys]; simpl; auto.
Qed.

(** Reset applied to a candidate: the spike flag is recomputed from the
    candidate, so the selection can be read off the candidate alone. *)
Lemma where_spike (c th : R) (a : list R) :
  where_ (gt_scalar (asfloat (ge_scalar a th)) 0) c a
  = map (fun x => if Rgeb x th then c else x) a.
Proof.
  unfold where_, gt_scalar, asfloat, ge_scalar.
  induction a as [|x a IH]; simpl; [reflexivity|].
  rewrite IH; f_equal.
  destruct (Rgeb x th).
  - replace (Rgtb 1 0) with true; [reflexivity|].
    symmetry; apply Rgtb_true; lra.
  - replace (Rgtb 0 0) with false; [reflexivity|].
    symmetry; apply Rgtb_false; lra.
Qed.


Lemma asfloat_ge_nth (a : list R) (th : R) (i : nat) (s : R) :
  nth_error (asfloat (ge_scalar a th)) i = Some s ->
  exists x, nth_error a i = Some x /\ s = if Rgeb x th then 1 else 0.
Proof.
  unfold asfloat, ge_scalar; rewrite map_map, nth_error_map.
  destruct (nth_error a i) as [x|]; simpl; [|discriminate].
  intros [= <-]; now exists x.
Qed.

Lemma update_spike odeint st t dt :
  spike (group (update odeint st t dt))
  = asfloat (ge_scalar (candidate odeint st t) (Vth (globals st))).
Proof. reflexivity. Qed.

Lemma update_V odeint st t dt :
  V (group (update odeint st t dt))
  = map (fun x => if Rgeb x (Vth (globals st)) then Vr (globals st) else x)
        (candidate odeint st t).
Proof. unfold update; simpl; apply where_spike. Qed.

Lemma update_globals odeint st t dt :
  globals (update odeint st t dt) = globals st.
Proof. reflexivity. Qed.

(** ** The update rule *)

(** C1: one call of [update] computes the candidate [V'] with the integrator,
    sets the spike flag of a unit to 1.0 where [V' >= Vth] and to 0.0
    elsewhere, and sets the potential to [Vr] where the flag is set and to
    [V'] elsewhere; a unit whose flag is 1.0 ends the step at exactly [Vr]. *)
Theorem update_threshold_reset :
  forall odeint (st : Store) (t dt : R),
    let g := globals st in
    let V' := odeint (derivative g) (V (group st)) t in
    let st' := update odeint st t dt in
    spike (group st') = map (fun v => if Rge_dec v (Vth g) then 1 else 0) V'
    /\ V (group st')
       = zipWith (fun s v => if Rgt_dec s 0 then Vr g else v) (spike (group st')) V'
    /\ V (group st') = map (fun v => if Rge_dec v (Vth g) then Vr g else v) V'
    /\ (forall i, nth_error (spike (group st')) i = Some 1 ->
                  nth_error (V (group st')) i = Some (Vr g)).
Proof.
  intros odeint st t dt; cbv zeta.
  rewrite update_V, update_spike; unfold candidate, asfloat, ge_scalar.
  rewrite map_map.
  set (g := globals st); set (V' := odeint (derivative g) (V (group st)) t).
  assert (HS : map (fun x => if Rgeb x (Vth g) then 1 else 0) V'
               = map (fun v => if Rge_dec v (Vth g) then 1 else 0) V').
  { apply map_ext; intro v; unfold Rgeb; now destruct (Rge_dec v (Vth g)). }
  assert (HV : map (fun x => if Rgeb x (Vth g) then Vr g else x) V'
               = map (fun v => if Rge_dec v (Vth g) then Vr g else v) V').
  { apply map_ext; intro v; unfold Rgeb; now destruct (Rge_dec v (Vth g)). }
  rewrite HS, HV; repeat split.
  - clear; induction V' as [|v l IH]; simpl; [reflexivity|].
    rewrite <- IH; f_equal.
    destruct (Rge_dec v (Vth g)).
    + destruct (Rgt_dec 1 0); [reflexivity|lra].
    + destruct (Rgt_dec 0 0); [lra|reflexivity].
  - intros i Hi. rewrite nth_error_map in *.
    destruct (nth_error V' i) as [v|]; simpl in *; [|discriminate].
    destruct (Rge_dec v (Vth g)); [reflexivity|].
    injection Hi; intro; lra.
Qed.

(** C2: the right-hand side handed to the integrator is, for every unit [i],
    [(-V[i] + inputs[i] + 2*sin(2*pi*t / tau)) / tau]; the oscillation
    period and the time constant are the same global [tau]. *)
Theorem derivative_elementwise :
  forall (g : Globals) (V : list R) (t : R) (i : nat) (v d : R),
    nth_error V i = Some v ->
    nth_error (inputs g) i = Some d ->
    nth_error (derivative g V t) i
    = Some ((- v + d + 2 * sin (2 * PI * t / tau g)) / tau g).
Proof.
  intros g V0 t i v d Hv Hd.
  unfold derivative, div_scalar, add_scalar, add, neg.
  rewrite !nth_error_map.
  rewrite (zipWith_nth_error Rplus (map Ropp V0) (inputs g) i (- v) d); trivial.
  now rewrite nth_error_map, Hv.
Qed.

Lemma derivative_elementwise_witness :
  nth_error (derivative scenario_globals [0] 0) 0%nat
  = Some ((- 0 + 3 + 2 * sin (2 * PI * 0 / tau scenario_globals))
          / tau scenario_globals).
Proof.
  apply (derivative_elementwise scenario_globals [0] 0 0%nat 0 3); reflexivity.
Defined.

(** ** Invariants of the update rule *)

Lemma asfloat_binary (m : list bool) :
  Forall (fun s => s = 0 \/ s = 1) (asfloat m).
Proof.
  unfold asfloat; apply Forall_map, Forall_forall.
  intros [|] _; auto.
Qed.

Lemma run_cons odeint st t ts dt :
  run odeint st (t :: ts) dt
  = (fst (run odeint (update odeint st t dt) ts dt),
     (t, spike (group (update odeint st t dt)))
       :: snd (run odeint (update odeint st t dt) ts dt)).
Proof.
  simpl; now destruct (run odeint (update odeint st t dt) ts dt).
Qed.

Lemma run_globals odeint st ts dt :
  globals (fst (run odeint st ts dt)) = globals st.
Proof.
  revert st; induction ts as [|t ts IH]; intro st; [reflexivity|].
  rewrite run_cons; simpl; now rewrite IH.
Qed.

(** [update] reads the potentials and never the old spike flags. *)
Lemma update_reads_V odeint st1 st2 t dt :
  globals st1 = globals st2 -> V (group st1) = V (group st2) ->
  update odeint st1 t dt = update odeint st2 t dt.
Proof. unfold update; now intros -> ->. Qed.

(** C5: after an update every entry of the spike vector is 0.0 or 1.0, and so
    is every entry of every vector the monitor records. *)
Theorem spike_binary :
  forall odeint (st : Store) (dt : R),
    (forall t, Forall (fun s => s = 0 \/ s = 1)
                      (spike (group (update odeint st t dt))))
    /\ (forall ts, Forall (fun rec => Forall (fun s => s = 0 \/ s = 1) (snd rec))
                          (snd (run odeint st ts dt))).
Proof.
  intros odeint st dt; split.
  - intro t; rewrite update_spike; apply asfloat_binary.
  - intro ts; revert st; induction ts as [|t ts IH]; intro st.
    + constructor.
    + rewrite run_cons; simpl; constructor; [|apply IH].
      simpl; apply asfloat_binary.
Qed.

(** C6: [update] writes the two fields of the object and nothing else: the
    globals, and the drive vector [inputs] among them, are the same after a
    step and after a whole run. *)
Theorem update_frame :
  forall odeint (st : Store) (dt : R),
    (forall t, globals (update odeint st t dt) = globals st)
    /\ (forall t, inputs (globals (update odeint st t dt)) = inputs (globals st))
    /\ (forall ts, globals (fst (run odeint st ts dt)) = globals st)
    /\ (forall ts, inputs (globals (fst (run odeint st ts dt)))
                   = inputs (globals st)).
Proof.
  intros odeint st dt; repeat split; intros.
  - now rewrite run_globals.
  - now rewrite run_globals.
Qed.

(** C9: a new object of any size holds two all-zero vectors of that length:
    every potential equals the reset value [Vr = 0] of the script and no
    unit is marked as spiking. *)
Theorem init_all_zero :
  forall size : nat,
    V (LIF_init size) = repeat 0 size
    /\ spike (LIF_init size) = repeat 0 size
    /\ length (V (LIF_init size)) = size
    /\ length (spike (LIF_init size)) = size
    /\ Forall (fun v => v = Vr (script_globals size)) (V (LIF_init size))
    /\ gt_scalar (spike (LIF_init size)) 0 = repeat false size.
Proof.
  intro size; unfold LIF_init, zeros; simpl.
  repeat split; try apply repeat_length.
  - apply Forall_forall; intros v Hv; now apply repeat_spec in Hv.
  - induction size as [|n IH]; simpl; [reflexivity|].
    rewrite IH; f_equal; apply Rgtb_false; lra.
Qed.

(** C10: when [Vr < Vth], every potential is strictly below [Vth] after an
    update. *)
Theorem update_below_threshold :
  forall odeint (st : Store) (t dt : R),
    Vr (globals st) < Vth (globals st) ->
    Forall (fun v => v < Vth (globals st)) (V (group (update odeint st t dt))).
Proof.
  intros odeint st t dt Hlt; rewrite update_V.
  apply Forall_map, Forall_forall; intros x _.
  destruct (Rgeb x (Vth (globals st))) eqn:E; [exact Hlt|].
  now apply Rgeb_false.
Qed.

Lemma update_below_threshold_witness :
  Forall (fun v => v < 1)
         (V (group (update (euler default_dt)
                           (mkStore scenario_globals (LIF_init 1)) 0 default_dt))).
Proof.
  apply (update_below_threshold (euler default_dt)
           (mkStore scenario_globals (LIF_init 1)) 0 default_dt).
  simpl; lra.
Defined.

(** ** Spike phases *)

Lemma Rmod_bounds (x y : R) : 0 < y -> 0 <= Rmod x y < y.
Proof.
  intro Hy; unfold Rmod.
  destruct (Zfloor_bound (x / y)) as [Hlo Hhi].
  set (f := IZR (Zfloor (x / y))) in *.
  assert (Hx : x / y * y = x) by (field; lra).
  split.
  - apply (Rmult_le_compat_r y) in Hlo; lra.
  - apply (Rmult_lt_compat_r y) in Hhi; lra.
Qed.

Lemma phase_bounds (t period : R) :
  0 < period -> 0 <= Rmod t period / period < 1.
Proof.
  intro Hp; destruct (Rmod_bounds t period Hp) as [Hlo Hhi].
  assert (Hi : 0 < / period) by now apply Rinv_0_lt_compat.
  unfold Rdiv; split.
  - apply Rmult_le_pos; lra.
  - apply (Rmult_lt_compat_r (/ period)) in Hhi; trivial.
    rewrite Rinv_r in Hhi; lra.
Qed.

(** C8: for spike times that are not negative and a positive period, every
    phase [(t % period) / period] lies in the interval from 0 (included) to
    1 (excluded). *)
Theorem spike_phases_range :
  forall (period : R) (times : list R),
    0 < period ->
    Forall (fun t => 0 <= t) times ->
    Forall (fun p => 0 <= p < 1) (spike_phases period times).
Proof.
  intros period times Hp _.
  unfold spike_phases, div_scalar, mod_scalar; rewrite map_map.
  apply Forall_map, Forall_forall; intros t _.
  now apply phase_bounds.
Qed.

Lemma spike_phases_range_witness :
  Forall (fun p => 0 <= p < 1) (spike_phases 100 [0; 125]).
Proof.
  apply (spike_phases_range 100 [0; 125]).
  - lra.
  - repeat constructor; lra.
Defined.

(** ** The potential never falls below the reset value *)

Lemma Forall_zipWith {A B C} (P : A -> Prop) (Q : B -> Prop) (S : C -> Prop)
      (f : A -> B -> C) (xs : list A) (ys : list B) :
  (forall x y, P x -> Q y -> S (f x y)) ->
  Forall P xs -> Forall Q ys -> Forall S (zipWith f xs ys).
Proof.
  intros Hf Hx; revert ys; induction Hx as [|x xs Px _ IH]; intros ys Hy.
  - constructor.
  - destruct Hy as [|y ys Qy Hy]; simpl; constructor; auto.
Qed.

(** One Euler step of the right-hand side, unit by unit. *)
Lemma euler_derivative (g : Globals) (dt : R) (Vs : list R) (t : R) :
  euler dt (derivative g) Vs t
  = zipWith (fun v d =>
               v + (- v + d + 2 * sin (2 * PI * t / tau g)) / tau g * dt)
            Vs (inputs g).
Proof.
  unfold euler, derivative, add, mul_scalar, div_scalar, add_scalar, neg.
  generalize (inputs g) as l.
  induction Vs as [|v Vs IH]; intros [|d l]; simpl; trivial.
  now rewrite IH.
Qed.

Lemma euler_step_lower (lo v d s tau dt : R) :
  0 < dt <= tau -> lo <= v -> lo + 2 <= d -> -1 <= s <= 1 ->
  lo <= v + (- v + d + 2 * s) / tau * dt.
Proof.
  intros [Hdt Htau] Hv Hd [Hs _].
  set (a := dt / tau).
  assert (Ha : 0 < a <= 1).
  { unfold a; split.
    - apply Rdiv_lt_0_compat; lra.
    - apply (Rmult_le_reg_r tau); [lra|].
      unfold Rdiv; rewrite Rmult_assoc, Rinv_l; lra. }
  replace ((- v + d + 2 * s) / tau * dt) with (a * (d + 2 * s - v))
    by (unfold a; field; lra).
  destruct (Rle_dec 0 (d + 2 * s - v)) as [Hpos|Hneg].
  - assert (0 <= a * (d + 2 * s - v)) by (apply Rmult_le_pos; lra). lra.
  - assert (a * (d + 2 * s - v) >= 1 * (d + 2 * s - v)) by nra. lra.
Qed.

Lemma euler_keeps_lower (g : Globals) (dt : R) (Vs : list R) (t : R) :
  0 < dt <= tau g ->
  Forall (fun d => Vr g + 2 <= d) (inputs g) ->
  Forall (fun v => Vr g <= v) Vs ->
  Forall (fun v => Vr g <= v) (euler dt (derivative g) Vs t).
Proof.
  intros Hdt Hin HV; rewrite euler_derivative.
  apply (Forall_zipWith (fun v => Vr g <= v) (fun d => Vr g + 2 <= d));
    trivial.
  intros v d Hv Hd; apply euler_step_lower; trivial.
  apply SIN_bound.
Qed.

Lemma update_keeps_lower (dt : R) (st : Store) (t dt' : R) :
  0 < dt <= tau (globals st) ->
  Forall (fun d => Vr (globals st) + 2 <= d) (inputs (globals st)) ->
  Forall (fun v => Vr (globals st) <= v) (V (group st)) ->
  Forall (fun v => Vr (globals st) <= v)
         (V (group (update (euler dt) st t dt'))).
Proof.
  intros Hdt Hin HV; rewrite update_V; unfold candidate.
  apply Forall_map.
  eapply Forall_impl; [|apply (euler_keeps_lower _ dt _ t Hdt Hin HV)].
  intros v Hv; simpl; destruct (Rgeb v (Vth (globals st))); lra.
Qed.

Lemma linspace_lower (start stop : R) (n : nat) :
  start <= stop -> Forall (fun d => start <= d) (linspace start stop n).
Proof.
  intro Hle; unfold linspace.
  apply Forall_map, Forall_forall; intros i _.
  assert (Hi : 0 <= INR i) by apply pos_INR.
  destruct (0 <? n - 1)%nat eqn:E.
  - apply Nat.ltb_lt in E.
    assert (Hd : 0 < INR (n - 1)) by now apply lt_0_INR.
    assert (0 <= (stop - start) / INR (n - 1))
      by (apply Rmult_le_pos; [lra|left; now apply Rinv_0_lt_compat]).
    assert (0 <= INR i * ((stop - start) / INR (n - 1)))
      by now apply Rmult_le_pos.
    lra.
  - assert (0 <= INR i * (stop - start)) by (apply Rmult_le_pos; lra). lra.
Qed.

Lemma reachable_globals odeint st0 st :
  reachable odeint st0 st -> globals st = globals st0.
Proof. induction 1; trivial. Qed.

(** C4: in the simulation of the script (drives from 2 to 4, reset value 0,
    Euler steps of 0.1 with time constant 100), whatever the population
    size, the number of updates and their times, no potential is below the
    reset value. *)
Theorem potential_never_below_reset :
  forall (n : nat) (st : Store),
    reachable (euler default_dt)
              (mkStore (script_globals n) (LIF_init n)) st ->
    Forall (fun v => Vr (script_globals n) <= v) (V (group st)).
Proof.
  intros n st Hr; induction Hr as [|st t dt Hr IH].
  - simpl; unfold zeros; apply Forall_forall; intros v Hv.
    apply repeat_spec in Hv; lra.
  - pose proof (reachable_globals _ _ _ Hr) as Hg; simpl in Hg.
    pose proof (update_keeps_lower default_dt st t dt) as H.
    rewrite Hg in H; apply H; trivial.
    + unfold default_dt; simpl; lra.
    + simpl. eapply Forall_impl; [|apply (linspace_lower 2 4 n); lra].
      simpl; intros; lra.
Qed.

Lemma potential_never_below_reset_witness :
  Forall (fun v => Vr (script_globals 2) <= v)
         (V (group (update (euler default_dt)
                           (mkStore (script_globals 2) (LIF_init 2))
                           0 default_dt))).
Proof.
  apply (potential_never_below_reset 2).
  apply reach_step, reach_init.
Defined.

(** ** Recorded spike events *)

Lemma nonzero_from_In (k : nat) (m : list bool) (i : nat) :
  In i (nonzero_from k m) ->
  exists j, i = (k + j)%nat /\ nth_error m j = Some true.
Proof.
  revert k; induction m as [|b m IH]; intros k Hi; simpl in Hi; [easy|].
  assert (Hrest : In i (nonzero_from (S k) m) ->
                  exists j, i = (k + j)%nat /\ nth_error (b :: m) j = Some true).
  { intro H; destruct (IH _ H) as (j & -> & Hj).
    exists (S j); split; [lia|exact Hj]. }
  destruct b; [|auto].
  destruct Hi as [<-|Hi]; [|auto].
  exists 0%nat; split; [lia|reflexivity].
Qed.

(** A positive entry of a freshly computed spike vector comes from a
    candidate at or above the threshold. *)
Lemma spike_positive_candidate (a : list R) (th : R) (j : nat) :
  nth_error (gt_scalar (asfloat (ge_scalar a th)) 0) j = Some true ->
  exists x, nth_error a j = Some x /\ x >= th.
Proof.
  unfold gt_scalar, asfloat, ge_scalar; rewrite !map_map, nth_error_map.
  destruct (nth_error a j) as [x|]; simpl; [|discriminate].
  intros [= H]; exists x; split; [reflexivity|].
  destruct (Rgeb x th) eqn:E; [now apply Rgeb_true|].
  apply Rgtb_true in H; lra.
Qed.

Lemma state_at_0 odeint st ts dt : state_at odeint st ts dt 0 = st.
Proof. reflexivity. Qed.

Lemma state_at_S odeint st t ts dt k :
  state_at odeint st (t :: ts) dt (S k)
  = state_at odeint (update odeint st t dt) ts dt k.
Proof. unfold state_at; simpl firstn; now rewrite run_cons. Qed.

Lemma raster_plot_cons (t : R) (sp : list R) (mon : list (R * list R)) :
  raster_plot ((t, sp) :: mon)
  = map (fun i => (i, t)) (nonzero_from 0 (gt_scalar sp 0)) ++ raster_plot mon.
Proof. reflexivity. Qed.

(** Every event the raster extraction reports stems from a step whose
    candidate potential, before the reset, had reached the threshold. *)
Lemma raster_events_above odeint st ts dt i t :
  In (i, t) (raster_plot (snd (run odeint st ts dt))) ->
  exists k v',
    (k < length ts)%nat /\ nth_error ts k = Some t
    /\ nth_error (candidate odeint (state_at odeint st ts dt k) t) i = Some v'
    /\ v' >= Vth (globals st).
Proof.
  revert st; induction ts as [|t0 ts IH]; intros st Hin; [easy|].
  rewrite run_cons in Hin; cbn [snd] in Hin.
  rewrite raster_plot_cons in Hin; apply in_app_or in Hin.
  destruct Hin as [Hin|Hin].
  - apply in_map_iff in Hin; destruct Hin as (j & [= -> ->] & Hj).
    apply nonzero_from_In in Hj; destruct Hj as (j' & -> & Hj).
    rewrite update_spike in Hj.
    apply spike_positive_candidate in Hj; destruct Hj as (x & Hx & Hge).
    exists 0%nat, x; rewrite state_at_0; simpl; repeat split; trivial; lia.
  - destruct (IH _ Hin) as (k & v' & Hk & Ht & Hc & Hv).
    exists (S k), v'; rewrite state_at_S; simpl; repeat split; trivial; lia.
Qed.

(** ** The end-to-end scenario *)

Lemma scenario_candidate (v s t : R) :
  candidate (euler default_dt) (mkStore scenario_globals (mkLIF [v] [s])) t
  = [v + (- v + 3 + 2 * sin (2 * PI * t / 100)) / 100 * default_dt].
Proof. unfold candidate; simpl; now rewrite euler_derivative. Qed.

Lemma scenario_update (v s t dt : R) :
  let c := v + (- v + 3 + 2 * sin (2 * PI * t / 100)) / 100 * default_dt in
  update (euler default_dt) (mkStore scenario_globals (mkLIF [v] [s])) t dt
  = mkStore scenario_globals
            (mkLIF [if Rgeb c 1 then 0 else c] [if Rgeb c 1 then 1 else 0]).
Proof.
  intro c.
  set (st := mkStore scenario_globals (mkLIF [v] [s])).
  change (update (euler default_dt) st t dt)
    with (mkStore (globals (update (euler default_dt) st t dt))
            (mkLIF (V (group (update (euler default_dt) st t dt)))
                   (spike (group (update (euler default_dt) st t dt))))).
  rewrite update_V, update_spike, update_globals.
  unfold st; rewrite scenario_candidate; reflexivity.
Qed.

(** During the first half period the oscillation is not negative, so a
    potential below threshold gains more than 0.002 per step. *)
Lemma scenario_gain (a : nat) (v : R) :
  (a <= 500)%nat -> v <= 1 ->
  v + 2 / 1000
  <= v + (- v + 3 + 2 * sin (2 * PI * (0 + INR a * default_dt) / 100)) / 100
         * default_dt.
Proof.
  intros Ha Hv.
  assert (H0 : 0 <= INR a) by apply pos_INR.
  assert (H1 : INR a <= 500).
  { apply le_INR in Ha; rewrite (INR_IZR_INZ 500) in Ha; exact Ha. }
  assert (Hpi : 0 < PI) by apply PI_RGT_0.
  assert (Hs : 0 <= sin (2 * PI * (0 + INR a * default_dt) / 100)).
  { unfold default_dt; apply sin_ge_0.
    - assert (0 <= PI * INR a) by (apply Rmult_le_pos; lra). lra.
    - assert (PI * INR a <= PI * 500) by (apply Rmult_le_compat_l; lra). lra. }
  unfold default_dt in *; lra.
Qed.

Lemma scenario_fires (n : nat) :
  forall (b a : nat) (v s : R),
    (b <= n)%nat -> (a + b <= 501)%nat ->
    v < 1 -> 1 <= v + INR b * (2 / 1000) ->
    raster_plot
      (snd (run (euler default_dt)
                (mkStore scenario_globals (mkLIF [v] [s]))
                (map (fun k => 0 + INR k * default_dt) (seq a n)) default_dt))
    <> [].
Proof.
  induction n as [|n IH]; intros [|b] a v s Hb Hab Hv Hreach;
    try (simpl in Hreach; lra); try lia.
  simpl seq; simpl map; rewrite run_cons; cbn [snd].
  rewrite raster_plot_cons, scenario_update.
  set (c := v + (- v + 3 + 2 * sin (2 * PI * (0 + INR a * default_dt) / 100))
                / 100 * default_dt).
  assert (Hgain : v + 2 / 1000 <= c)
    by (apply scenario_gain; [lia|lra]).
  destruct (Rgeb c 1) eqn:E; simpl.
  - replace (Rgtb 1 0) with true by (symmetry; apply Rgtb_true; lra).
    discriminate.
  - replace (Rgtb 0 0) with false by (symmetry; apply Rgtb_false; lra).
    simpl; apply (IH b (S a) c 0); try lia.
    + now apply Rgeb_false.
    + rewrite S_INR in Hreach; lra.
Qed.

(** C3: one unit with drive 3, [tau = 100] (which is also the period),
    threshold 1, reset 0, Euler steps of 0.1: a run of 1000 steps from time 0
    records at least one spike event, and every recorded event (unit, time)
    belongs to a step of the run whose candidate potential, before the
    reset, was at least 1. *)
Theorem scenario_end_to_end :
  let st0 := mkStore scenario_globals (LIF_init 1) in
  let ts := arange 0 default_dt 1000 in
  let events := raster_plot (snd (run (euler default_dt) st0 ts default_dt)) in
  events <> []
  /\ (forall i t, In (i, t) events ->
        exists k v',
          (k < 1000)%nat /\ nth_error ts k = Some t
          /\ nth_error (candidate (euler default_dt)
                          (state_at (euler default_dt) st0 ts default_dt k) t) i
             = Some v'
          /\ v' >= 1).
Proof.
  intros st0 ts events; split.
  - unfold events, ts, st0, arange.
    apply (scenario_fires 1000 500 0 0 0); try lia; try lra.
    rewrite (INR_IZR_INZ 500); simpl; lra.
  - intros i t Hin.
    destruct (raster_events_above _ _ _ _ _ _ Hin) as (k & v' & Hk & H).
    exists k, v'; split; [|exact H].
    unfold ts, arange in Hk; now rewrite length_map, length_seq in Hk.
Qed.

(** ** The definitions at concrete inputs *)

Example linspace_three : linspace 2 4 3 = [2; 3; 4].
Proof. unfold linspace; simpl; repeat f_equal; lra. Qed.

Example linspace_one : linspace 2 4 1 = [2].
Proof. unfold linspace; simpl; f_equal; lra. Qed.

Example Rmod_positive : Rmod 125 100 = 25.
Proof.
  unfold Rmod; replace (Zfloor (125 / 100)) with 1%Z; [lra|].
  symmetry; apply Zfloor_eq; lra.
Qed.

Example Rmod_negative : Rmod (-25) 100 = 75.
Proof.
  unfold Rmod; replace (Zfloor (-25 / 100)) with (-1)%Z; [lra|].
  symmetry; apply Zfloor_eq; lra.
Qed.

Example scenario_first_step :
  update (euler default_dt) (mkStore scenario_globals (LIF_init 1)) 0 default_dt
  = mkStore scenario_globals (mkLIF [3 / 1000] [0]).
Proof.
  change (LIF_init 1) with (mkLIF [0] [0]); rewrite scenario_update.
  replace (2 * PI * 0 / 100) with 0 by lra; rewrite sin_0.
  replace (0 + (- 0 + 3 + 2 * 0) / 100 * default_dt) with (3 / 1000)
    by (unfold default_dt; lra).
  replace (Rgeb (3 / 1000) 1) with false; [reflexivity|].
  symmetry; apply Rgeb_false; lra.
Qed.

Example raster_plot_two_rows :
  raster_plot [(0, [0; 1]); (1 / 10, [1; 0])] = [(1%nat, 0); (0%nat, 1 / 10)].
Proof.
  unfold raster_plot, gt_scalar; simpl.
  replace (Rgtb 1 0) with true by (symmetry; apply Rgtb_true; lra).
  replace (Rgtb 0 0) with false by (symmetry; apply Rgtb_false; lra).
  reflexivity.
Qed.

(** ** The drive vector *)

Lemma linspace_nth (start stop : R) (n i : nat) :
  (i < n)%nat ->
  nth_error (linspace start stop n) i
  = Some (if (0 <? n - 1)%nat
          then start + INR i * ((stop - start) / INR (n - 1))
          else start + INR i * (stop - start)).
Proof.
  intro Hi; unfold linspace.
  rewrite nth_error_map, (nth_error_nth' (seq 0 n) 0%nat)
    by now rewrite length_seq.
  now rewrite seq_nth.
Qed.

(** X1: [linspace] returns exactly [num] values, the first is [start] and,
    when there are at least two, the last is [stop]. *)
Theorem linspace_shape :
  forall (start stop : R) (n : nat),
    length (linspace start stop n) = n
    /\ ((1 <= n)%nat -> nth_error (linspace start stop n) 0 = Some start)
    /\ ((2 <= n)%nat ->
        nth_error (linspace start stop n) (n - 1) = Some stop).
Proof.
  intros start stop n; repeat split.
  - unfold linspace; now rewrite length_map, length_seq.
  - intro Hn; rewrite linspace_nth by lia; f_equal.
    destruct (0 <? n - 1)%nat; simpl; lra.
  - intro Hn; rewrite linspace_nth by lia; f_equal.
    assert (E : (0 <? n - 1)%nat = true) by (apply Nat.ltb_lt; lia).
    rewrite E.
    assert (0 < INR (n - 1)) by (apply lt_0_INR; lia).
    field; lra.
Qed.



Lemma linspace_upper (start stop : R) (n : nat) :
  start <= stop -> Forall (fun d => d <= stop) (linspace start stop n).
Proof.
  intro Hle; unfold linspace.
  apply Forall_map, Forall_forall; intros i Hi.
  apply in_seq in Hi.
  assert (H0 : 0 <= INR i) by apply pos_INR.
  destruct (0 <? n - 1)%nat eqn:E.
  - apply Nat.ltb_lt in E.
    assert (Hd : 0 < INR (n - 1)) by now apply lt_0_INR.
    assert (Hin : INR i <= INR (n - 1)) by (apply le_INR; lia).
    assert (Hq : INR i / INR (n - 1) <= 1).
    { apply (Rmult_le_reg_r (INR (n - 1))); trivial.
      unfold Rdiv; rewrite Rmult_assoc, Rinv_l; lra. }
    replace (INR i * ((stop - start) / INR (n - 1)))
      with (INR i / INR (n - 1) * (stop - start)) by (field; lra).
    assert (INR i / INR (n - 1) * (stop - start) <= 1 * (stop - start))
      by (apply Rmult_le_compat_r; lra).
    lra.
  - apply Nat.ltb_ge in E.
    assert (i = 0%nat) by lia; subst i; simpl; lra.
Qed.

(** X3: when [start <= stop], every value of [linspace] lies between the
    two end points. *)
Theorem linspace_range :
  forall (start stop : R) (n : nat),
    start <= stop ->
    Forall (fun d => start <= d <= stop) (linspace start stop n).
Proof.
  intros start stop n Hle; apply Forall_forall; intros d Hd; split.
  - pose proof (linspace_lower start stop n Hle) as H.
    rewrite Forall_forall in H; now apply H.
  - pose proof (linspace_upper start stop n Hle) as H.
    rewrite Forall_forall in H; now apply H.
Qed.

Lemma linspace_range_witness :
  Forall (fun d => 2 <= d <= 4) (linspace 2 4 2000).
Proof. apply (linspace_range 2 4 2000); lra. Defined.

Lemma script_inputs_range (n : nat) :
  Forall (fun d => 2 <= d <= 4) (inputs (script_globals n)).
Proof.
  simpl; apply Forall_forall; intros d Hd; split.
  - pose proof (linspace_lower 2 4 n) as H.
    rewrite Forall_forall in H; apply H; trivial; lra.
  - pose proof (linspace_upper 2 4 n) as H.
    rewrite Forall_forall in H; apply H; trivial; lra.
Qed.

(** ** Units do not interact *)

Lemma zipWith_nth_error_inv {A B C} (f : A -> B -> C) xs ys i z :
  nth_error (zipWith f xs ys) i = Some z ->
  exists x y, nth_error xs i = Some x /\ nth_error ys i = Some y /\ z = f x y.
Proof.
  revert ys i; induction xs as [|a xs IH]; intros [|b ys] [|i]; simpl;
    try discriminate.
  - intros [= <-]; now exists a, b.
  - apply IH.
Qed.

(** With Euler steps, the next potential and the next flag of unit [i] are a
    function of its own potential, its own drive and the time. *)
Lemma update_unit (dt : R) (st : Store) (t dt' : R) (i : nat) (v d : R) :
  nth_error (V (group st)) i = Some v ->
  nth_error (inputs (globals st)) i = Some d ->
  let g := globals st in
  let c := v + (- v + d + 2 * sin (2 * PI * t / tau g)) / tau g * dt in
  nth_error (V (group (update (euler dt) st t dt'))) i
  = Some (if Rgeb c (Vth g) then Vr g else c)
  /\ nth_error (spike (group (update (euler dt) st t dt'))) i
     = Some (if Rgeb c (Vth g) then 1 else 0).
Proof.
  intros Hv Hd g c.
  assert (Hc : nth_error (candidate (euler dt) st t) i = Some c).
  { unfold candidate; rewrite euler_derivative.
    now rewrite (zipWith_nth_error _ _ _ i v d Hv Hd). }
  rewrite update_V, update_spike; unfold asfloat, ge_scalar.
  now rewrite map_map, !nth_error_map, Hc.
Qed.

(** X4: units are independent.  Two populations with the same [tau], [Vth]
    and [Vr] in which unit [i] has the same potential and the same drive
    record the same spike train for unit [i], whatever the other units
    hold. *)
Theorem unit_spike_train_independent :
  forall (dt : R) (ts : list R) (st1 st2 : Store) (dt' : R) (i : nat) (v d : R),
    tau (globals st1) = tau (globals st2) ->
    Vth (globals st1) = Vth (globals st2) ->
    Vr (globals st1) = Vr (globals st2) ->
    nth_error (V (group st1)) i = Some v ->
    nth_error (V (group st2)) i = Some v ->
    nth_error (inputs (globals st1)) i = Some d ->
    nth_error (inputs (globals st2)) i = Some d ->
    map (fun rec => (fst rec, nth_error (snd rec) i))
        (snd (run (euler dt) st1 ts dt'))
    = map (fun rec => (fst rec, nth_error (snd rec) i))
          (snd (run (euler dt) st2 ts dt')).
Proof.
  intros dt ts; induction ts as [|t ts IH];
    intros st1 st2 dt' i v d Htau Hth Hr Hv1 Hv2 Hd1 Hd2; [reflexivity|].
  rewrite !run_cons; cbn [snd map fst].
  destruct (update_unit dt st1 t dt' i v d Hv1 Hd1) as [HV1 HS1].
  destruct (update_unit dt st2 t dt' i v d Hv2 Hd2) as [HV2 HS2].
  cbv zeta in HV1, HS1, HV2, HS2.
  rewrite <- Htau, <- Hth in HV2, HS2; rewrite <- Hr in HV2.
  rewrite HS1, HS2; f_equal.
  eapply IH; rewrite ?update_globals; eauto.
Qed.

Lemma unit_spike_train_independent_witness :
  map (fun rec => (fst rec, nth_error (snd rec) 0))
      (snd (run (euler default_dt)
                (mkStore (mkGlobals 2 100 1 0 [2; 4]) (mkLIF [0; 0] [0; 0]))
                (arange 0 default_dt 3) default_dt))
  = map (fun rec => (fst rec, nth_error (snd rec) 0))
        (snd (run (euler default_dt)
                  (mkStore (mkGlobals 1 100 1 0 [2]) (mkLIF [0] [0]))
                  (arange 0 default_dt 3) default_dt)).
Proof.
  apply (unit_spike_train_independent default_dt (arange 0 default_dt 3)
           (mkStore (mkGlobals 2 100 1 0 [2; 4]) (mkLIF [0; 0] [0; 0]))
           (mkStore (mkGlobals 1 100 1 0 [2]) (mkLIF [0] [0]))
           default_dt 0%nat 0 2); reflexivity.
Defined.

(** ** Shapes *)

Lemma euler_derivative_length (g : Globals) (dt : R) (Vs : list R) (t : R) :
  length (euler dt (derivative g) Vs t)
  = Nat.min (length Vs) (length (inputs g)).
Proof. rewrite euler_derivative; apply zipWith_length. Qed.

Lemma update_lengths (dt : R) (st : Store) (t dt' : R) :
  length (V (group (update (euler dt) st t dt')))
  = Nat.min (length (V (group st))) (length (inputs (globals st)))
  /\ length (spike (group (update (euler dt) st t dt')))
     = Nat.min (length (V (group st))) (length (inputs (globals st))).
Proof.
  rewrite update_V, update_spike; unfold asfloat, ge_scalar, candidate.
  now rewrite !length_map, euler_derivative_length.
Qed.

Lemma run_shapes (dt : R) (ts : list R) :
  forall (st : Store) (dt' : R),
    length (V (group st)) = length (inputs (globals st)) ->
    length (V (group (fst (run (euler dt) st ts dt'))))
    = length (inputs (globals st))
    /\ map fst (snd (run (euler dt) st ts dt')) = ts
    /\ Forall (fun rec => length (snd rec) = length (inputs (globals st)))
              (snd (run (euler dt) st ts dt')).
Proof.
  induction ts as [|t ts IH]; intros st dt' Hlen.
  - simpl; auto.
  - rewrite run_cons; cbn [fst snd map].
    destruct (update_lengths dt st t dt') as [HV HS].
    rewrite Hlen, Nat.min_id in HV, HS.
    destruct (IH (update (euler dt) st t dt') dt') as (H1 & H2 & H3).
    { now rewrite update_globals. }
    rewrite update_globals in *.
    repeat split; trivial; [now rewrite H2|].
    constructor; trivial.
Qed.

(** X5: when the population has one drive per unit, Euler updates keep the
    shapes: after a run the potential vector still has one entry per unit,
    and the monitor holds one row per time point, in order, each row with
    one flag per unit. *)
Theorem run_keeps_shapes :
  forall (dt : R) (ts : list R) (st : Store) (dt' : R),
    length (V (group st)) = length (inputs (globals st)) ->
    length (V (group (fst (run (euler dt) st ts dt'))))
    = length (inputs (globals st))
    /\ map fst (snd (run (euler dt) st ts dt')) = ts
    /\ Forall (fun rec => length (snd rec) = length (inputs (globals st)))
              (snd (run (euler dt) st ts dt')).
Proof. intros dt ts st dt'; apply run_shapes. Qed.

Lemma run_keeps_shapes_witness :
  length (V (group (fst (run (euler default_dt)
                             (mkStore scenario_globals (LIF_init 1))
                             (arange 0 default_dt 3) default_dt))))
  = length (inputs scenario_globals)
  /\ map fst (snd (run (euler default_dt)
                       (mkStore scenario_globals (LIF_init 1))
                       (arange 0 default_dt 3) default_dt))
     = arange 0 default_dt 3
  /\ Forall (fun rec => length (snd rec) = length (inputs scenario_globals))
            (snd (run (euler default_dt)
                      (mkStore scenario_globals (LIF_init 1))
                      (arange 0 default_dt 3) default_dt)).
Proof.
  apply (run_keeps_shapes default_dt (arange 0 default_dt 3)
           (mkStore scenario_globals (LIF_init 1)) default_dt).
  reflexivity.
Defined.

(** ** The scatter data *)

Lemma nonzero_from_bound (k : nat) (m : list bool) :
  Forall (fun i => (i < k + length m)%nat) (nonzero_from k m).
Proof.
  apply Forall_forall; intros i Hi.
  apply nonzero_from_In in Hi; destruct Hi as (j & -> & Hj).
  assert (nth_error m j <> None) by congruence.
  apply nth_error_Some in H; lia.
Qed.

Lemma raster_index_bound (mon : list (R * list R)) (m : nat) :
  Forall (fun rec => length (snd rec) = m) mon ->
  Forall (fun e => (fst e < m)%nat) (raster_plot mon).
Proof.
  intro Hmon; unfold raster_plot.
  apply Forall_flat_map; eapply Forall_impl; [|exact Hmon].
  intros [t row] Hrow; simpl in *.
  apply Forall_map; simpl.
  pose proof (nonzero_from_bound 0 (gt_scalar row 0)) as H.
  unfold gt_scalar in H at 1; rewrite length_map, Hrow in H; exact H.
Qed.

Lemma take_in_range (a : list R) (idx : list nat) :
  Forall (fun i => (i < length a)%nat) idx ->
  exists xs, take a idx = Some xs
             /\ length xs = length idx
             /\ Forall (fun x => In x a) xs.
Proof.
  induction 1 as [|i idx Hi _ (xs & Hxs & Hlen & Hall)]; simpl.
  - exists []; auto.
  - apply nth_error_Some in Hi.
    destruct (nth_error a i) as [x|] eqn:E; [|congruence].
    rewrite Hxs; exists (x :: xs); simpl; repeat split; auto.
    constructor; [now apply nth_error_In in E|trivial].
Qed.

(** X6: for every population size and every number of steps, the script
    obtains its scatter data: no index of a spike event is out of range for
    [inputs], the phase and parameter arrays have the same length, every
    phase lies in [0, 1) and every parameter between 2 and 4. *)
Theorem script_scatter_well_formed :
  forall n steps : nat,
    exists phases params,
      script_scatter n steps = Some (phases, params)
      /\ length phases = length params
      /\ Forall (fun p => 0 <= p < 1) phases
      /\ Forall (fun d => 2 <= d <= 4) params.
Proof.
  intros n steps; unfold script_scatter.
  set (g := script_globals n).
  set (st := mkStore g (LIF_init (num g))).
  set (mon := snd (run (euler default_dt) st (arange 0 default_dt steps)
                       default_dt)).
  assert (Hlen : length (V (group st)) = length (inputs (globals st))).
  { simpl; unfold zeros, linspace.
    now rewrite repeat_length, length_map, length_seq. }
  destruct (run_shapes default_dt (arange 0 default_dt steps) st default_dt
              Hlen) as (_ & _ & Hrows).
  fold mon in Hrows.
  apply raster_index_bound in Hrows.
  assert (Hidx : Forall (fun i => (i < length (inputs g))%nat)
                        (map fst (raster_plot mon)))
    by (apply Forall_map; exact Hrows).
  destruct (take_in_range (inputs g) (map fst (raster_plot mon)) Hidx)
    as (params & Htake & Hl & Hin).
  rewrite Htake; exists (spike_phases (tau g) (map snd (raster_plot mon))), params.
  repeat split.
  - unfold spike_phases, div_scalar, mod_scalar.
    now rewrite Hl, !length_map.
  - unfold spike_phases, div_scalar, mod_scalar; rewrite map_map.
    apply Forall_map, Forall_forall; intros t _.
    apply phase_bounds; simpl; lra.
  - pose proof (script_inputs_range n) as Hr; fold g in Hr.
    rewrite Forall_forall in Hr, Hin |- *; auto.
Qed.

(** ** Units with a strong drive fire early *)

Lemma drive_gain (a : nat) (v d : R) :
  (a <= 500)%nat -> v <= 1 -> 3 <= d ->
  v + 2 / 1000
  <= v + (- v + d + 2 * sin (2 * PI * (0 + INR a * default_dt) / 100)) / 100
         * default_dt.
Proof.
  intros Ha Hv Hd.
  pose proof (scenario_gain a v Ha Hv) as H.
  unfold default_dt in *; lra.
Qed.

Lemma unit_fires (i : nat) (d : R) (dt' : R) (m : nat) :
  forall (b a : nat) (st : Store) (v : R),
    tau (globals st) = 100 -> Vth (globals st) = 1 ->
    nth_error (inputs (globals st)) i = Some d -> 3 <= d ->
    nth_error (V (group st)) i = Some v ->
    v < 1 -> 1 <= v + INR b * (2 / 1000) ->
    (b <= m)%nat -> (a + b <= 501)%nat ->
    exists k row,
      (k < b)%nat
      /\ nth_error (snd (run (euler default_dt) st
                             (map (fun k => 0 + INR k * default_dt) (seq a m))
                             dt')) k
         = Some (0 + INR (a + k) * default_dt, row)
      /\ nth_error row i = Some 1.
Proof.
  induction m as [|m IH]; intros [|b] a st v Htau Hth Hd Hd3 Hv Hlt Hreach Hb Hab;
    try (simpl in Hreach; lra); try lia.
  simpl seq; simpl map; rewrite run_cons; cbn [snd].
  set (t := 0 + INR a * default_dt).
  destruct (update_unit default_dt st t dt' i v d Hv Hd) as [HV HS].
  cbv zeta in HV, HS; rewrite Htau, Hth in HV, HS.
  set (c := v + (- v + d + 2 * sin (2 * PI * t / 100)) / 100 * default_dt)
    in HV, HS.
  assert (Hgain : v + 2 / 1000 <= c)
    by (apply drive_gain; [lia|lra|trivial]).
  destruct (Rgeb c 1) eqn:E.
  - exists 0%nat, (spike (group (update (euler default_dt) st t dt'))).
    rewrite Nat.add_0_r; repeat split; trivial; lia.
  - apply Rgeb_false in E.
    destruct (IH b (S a) (update (euler default_dt) st t dt') c)
      as (k & row & Hk & Hrow & Hflag);
      rewrite ?update_globals; trivial; try lia.
    { rewrite S_INR in Hreach; lra. }
    exists (S k), row; simpl nth_error.
    replace (a + S k)%nat with (S a + k)%nat by lia.
    repeat split; trivial; lia.
Qed.

(** X7: in the simulation of the script started at time 0, every unit whose
    drive is at least 3 has a spike recorded within the first 500 steps
    (half a period), whatever the population size. *)
Theorem strong_drive_fires_early :
  forall (n steps i : nat) (d : R),
    nth_error (inputs (script_globals n)) i = Some d ->
    3 <= d ->
    (500 <= steps)%nat ->
    exists k row,
      (k < 500)%nat
      /\ nth_error (snd (run (euler default_dt)
                             (mkStore (script_globals n) (LIF_init n))
                             (arange 0 default_dt steps) default_dt)) k
         = Some (0 + INR k * default_dt, row)
      /\ nth_error row i = Some 1.
Proof.
  intros n steps i d Hd Hd3 Hsteps.
  assert (Hi : (i < n)%nat).
  { assert (H : nth_error (inputs (script_globals n)) i <> None) by congruence.
    apply nth_error_Some in H; simpl in H; unfold linspace in H.
    now rewrite length_map, length_seq in H. }
  destruct (unit_fires i d default_dt steps 500 0
              (mkStore (script_globals n) (LIF_init n)) 0)
    as (k & row & Hk & Hrow & Hflag); trivial; try lia; try lra.
  - simpl; unfold zeros; now apply nth_error_repeat.
  - rewrite (INR_IZR_INZ 500); simpl; lra.
  - exists k, row; auto.
Qed.

Lemma strong_drive_fires_early_witness :
  exists k row,
    (k < 500)%nat
    /\ nth_error (snd (run (euler default_dt)
                           (mkStore (script_globals 3) (LIF_init 3))
                           (arange 0 default_dt 500) default_dt)) k
       = Some (0 + INR k * default_dt, row)
    /\ nth_error row 1 = Some 1.
Proof.
  apply (strong_drive_fires_early 3 500 1 3).
  - simpl inputs; rewrite linspace_three; reflexivity.
  - lra.
  - lia.
Defined.

(** ** Silence after a spike *)

(** A potential far enough below threshold cannot reach it: each Euler step
    of the script adds at most 0.006. *)
Lemma unit_silent (i : nat) (d dt' : R) (ts : list R) :
  forall (st : Store) (v : R),
    tau (globals st) = 100 -> Vth (globals st) = 1 ->
    nth_error (inputs (globals st)) i = Some d -> 2 <= d <= 4 ->
    nth_error (V (group st)) i = Some v ->
    0 <= v -> v + INR (length ts) * (6 / 1000) < 1 ->
    Forall (fun rec => nth_error (snd rec) i = Some 0)
           (snd (run (euler default_dt) st ts dt')).
Proof.
  induction ts as [|t ts IH]; intros st v Htau Hth Hd Hd24 Hv Hpos Hroom.
  - constructor.
  - rewrite run_cons; cbn [snd].
    destruct (update_unit default_dt st t dt' i v d Hv Hd) as [HV HS].
    cbv zeta in HV, HS; rewrite Htau, Hth in HV, HS.
    set (c := v + (- v + d + 2 * sin (2 * PI * t / 100)) / 100 * default_dt)
      in HV, HS.
    pose proof (SIN_bound (2 * PI * t / 100)) as [Hs1 Hs2].
    assert (Hc : 0 <= c <= v + 6 / 1000)
      by (unfold c, default_dt; split; lra).
    change (length (t :: ts)) with (S (length ts)) in Hroom.
    rewrite S_INR in Hroom.
    assert (Hn : 0 <= INR (length ts)) by apply pos_INR.
    assert (E : Rgeb c 1 = false) by (apply Rgeb_false; nra).
    rewrite E in HV, HS.
    constructor; [exact HS|].
    apply (IH _ c); rewrite ?update_globals; trivial; lra.
Qed.

(** X8: in the simulation of the script, a unit that spikes on one step
    spikes on none of the next 166 steps, whatever their times. *)
Theorem silent_after_spike :
  forall (n : nat) (st : Store) (t dt' : R) (ts : list R) (dt'' : R) (i : nat),
    globals st = script_globals n ->
    nth_error (spike (group (update (euler default_dt) st t dt'))) i = Some 1 ->
    (length ts <= 166)%nat ->
    Forall (fun rec => nth_error (snd rec) i = Some 0)
           (snd (run (euler default_dt)
                     (update (euler default_dt) st t dt') ts dt'')).
Proof.
  intros n st t dt' ts dt'' i Hg Hspike Hlen.
  rewrite update_spike in Hspike.
  apply asfloat_ge_nth in Hspike; destruct Hspike as (x & Hx & Hflag).
  unfold candidate in Hx; rewrite euler_derivative in Hx.
  apply zipWith_nth_error_inv in Hx; destruct Hx as (v & d & Hv & Hd & ->).
  destruct (update_unit default_dt st t dt' i v d Hv Hd) as [HV _].
  cbv zeta in HV.
  set (c := v + (- v + d + 2 * sin (2 * PI * t / tau (globals st)))
                / tau (globals st) * default_dt) in *.
  assert (E : Rgeb c (Vth (globals st)) = true).
  { destruct (Rgeb c (Vth (globals st))); [reflexivity|exfalso; lra]. }
  rewrite E, Hg in HV; simpl Vr in HV.
  assert (Hd24 : 2 <= d <= 4).
  { pose proof (script_inputs_range n) as Hr.
    rewrite Forall_forall in Hr; apply Hr.
    rewrite <- Hg; now apply nth_error_In in Hd. }
  apply (unit_silent i d dt'' ts _ 0); rewrite ?update_globals, ?Hg;
    trivial; try lra.
  - now rewrite <- Hg.
  - apply le_INR in Hlen; rewrite (INR_IZR_INZ 166) in Hlen; simpl in Hlen.
    lra.
Qed.

Lemma silent_after_spike_witness :
  Forall (fun rec => nth_error (snd rec) 0 = Some 0)
         (snd (run (euler default_dt)
                   (update (euler default_dt)
                           (mkStore (script_globals 1) (mkLIF [1] [0]))
                           0 default_dt)
                   [1 / 10; 2 / 10] default_dt)).
Proof.
  apply (silent_after_spike 1 (mkStore (script_globals 1) (mkLIF [1] [0]))
           0 default_dt [1 / 10; 2 / 10] default_dt 0%nat).
  - reflexivity.
  - destruct (update_unit default_dt
                (mkStore (script_globals 1) (mkLIF [1] [0])) 0 default_dt
                0%nat 1 2) as [_ HS].
    + reflexivity.
    + simpl inputs; rewrite linspace_one; reflexivity.
    + cbv zeta in HS; rewrite HS; f_equal.
      replace (Rgeb _ _) with true; [reflexivity|].
      symmetry; apply Rgeb_true; simpl.
      replace (2 * PI * 0 / 100) with 0 by lra; rewrite sin_0.
      unfold default_dt; lra.
  - simpl; lia.
Defined.

(** ** Phases *)

(** X10: a spike in the first period, [0 <= t < period], has phase
    [t / period]. *)
Theorem spike_phases_first_period :
  forall (period : R) (times : list R),
    Forall (fun t => 0 <= t < period) times ->
    spike_phases period times = div_scalar times period.
Proof.
  intros period times Hall.
  unfold spike_phases, div_scalar, mod_scalar; rewrite map_map.
  apply map_ext_in; intros t Ht.
  rewrite Forall_forall in Hall; specialize (Hall t Ht).
  unfold Rmod; replace (Zfloor (t / period)) with 0%Z; [f_equal; lra|].
  symmetry; apply Zfloor_eq; simpl.
  assert (Hp : 0 < period) by lra.
  split.
  - apply Rmult_le_pos; [lra|left; now apply Rinv_0_lt_compat].
  - apply (Rmult_lt_reg_r period); trivial.
    unfold Rdiv; rewrite Rmult_assoc, Rinv_l; lra.
Qed.

Lemma spike_phases_first_period_witness :
  spike_phases 100 [0; 25] = div_scalar [0; 25] 100.
Proof.
  apply (spike_phases_first_period 100 [0; 25]).
  repeat constructor; lra.
Defined.

(** ** No spike is lost *)

Lemma nonzero_from_complete (k : nat) (m : list bool) (j : nat) :
  nth_error m j = Some true -> In (k + j)%nat (nonzero_from k m).
Proof.
  revert k j; induction m as [|b m IH]; intros k [|j] Hj; simpl in *;
    try discriminate.
  - injection Hj as ->; rewrite Nat.add_0_r; now left.
  - replace (k + S j)%nat with (S k + j)%nat by lia.
    destruct b; [right|]; now apply IH.
Qed.

Lemma candidate_positive_spike (a : list R) (th : R) (j : nat) (x : R) :
  nth_error a j = Some x -> x >= th ->
  nth_error (gt_scalar (asfloat (ge_scalar a th)) 0) j = Some true.
Proof.
  intros Hx Hge; unfold gt_scalar, asfloat, ge_scalar.
  rewrite !map_map, nth_error_map, Hx; simpl; f_equal.
  replace (Rgeb x th) with true by (symmetry; now apply Rgeb_true).
  apply Rgtb_true; lra.
Qed.

(** X11: no spike is lost between the update and the raster: whenever the
    candidate potential of unit [i] reaches the threshold on the step taken
    at time [t], the event [(i, t)] is among those the raster extraction
    returns, for any integrator. *)
Theorem raster_records_every_crossing :
  forall odeint (ts : list R) (st : Store) (dt : R) (k i : nat) (t v' : R),
    nth_error ts k = Some t ->
    nth_error (candidate odeint (state_at odeint st ts dt k) t) i = Some v' ->
    v' >= Vth (globals st) ->
    In (i, t) (raster_plot (snd (run odeint st ts dt))).
Proof.
  intros odeint ts; induction ts as [|t0 ts IH];
    intros st dt [|k] i t v' Ht Hc Hge; simpl in Ht; try discriminate.
  - injection Ht as ->; rewrite state_at_0 in Hc.
    rewrite run_cons; cbn [snd]; rewrite raster_plot_cons.
    apply in_or_app; left.
    apply in_map_iff; exists i; split; [reflexivity|].
    rewrite update_spike.
    apply (nonzero_from_complete 0), (candidate_positive_spike _ _ _ v');
      trivial.
  - rewrite state_at_S in Hc.
    rewrite run_cons; cbn [snd]; rewrite raster_plot_cons.
    apply in_or_app; right.
    apply (IH _ dt k i t v'); trivial.
Qed.

Lemma raster_records_every_crossing_witness :
  In (0%nat, 0)
     (raster_plot (snd (run (euler default_dt)
                            (mkStore scenario_globals (mkLIF [1] [0]))
                            [0] default_dt))).
Proof.
  apply (raster_records_every_crossing (euler default_dt) [0]
           (mkStore scenario_globals (mkLIF [1] [0])) default_dt
           0%nat 0%nat 0
           (1 + (- 1 + 3 + 2 * sin (2 * PI * 0 / 100)) / 100 * default_dt)).
  - reflexivity.
  - rewrite state_at_0, scenario_candidate; reflexivity.
  - simpl; replace (2 * PI * 0 / 100) with 0 by lra; rewrite sin_0.
    unfold default_dt; lra.
Defined.

(** ** Bounded potentials *)

Lemma reachable_range (n : nat) (st : Store) :
  reachable (euler default_dt) (mkStore (script_globals n) (LIF_init n)) st ->
  Forall (fun v => 0 <= v < 1) (V (group st)).
Proof.
  intro Hr; induction Hr as [|st t dt Hr IH].
  - simpl; unfold zeros; apply Forall_forall; intros v Hv.
    apply repeat_spec in Hv; lra.
  - pose proof (reachable_globals _ _ _ Hr) as Hg; simpl in Hg.
    assert (Hlow : Forall (fun v => Vr (globals st) <= v)
                          (euler default_dt (derivative (globals st))
                                 (V (group st)) t)).
    { apply euler_keeps_lower; rewrite Hg; simpl.
      - unfold default_dt; lra.
      - eapply Forall_impl; [|apply (linspace_lower 2 4 n); lra].
        simpl; intros; lra.
      - eapply Forall_impl; [|exact IH]. simpl; intros; lra. }
    rewrite update_V; unfold candidate; apply Forall_map.
    eapply Forall_impl; [|exact Hlow].
    rewrite Hg; simpl; intros c Hc.
    destruct (Rgeb c 1) eqn:E; [lra|].
    apply Rgeb_false in E; lra.
Qed.

(** X12: in the simulation of the script the threshold is never overshot by
    more than 0.006: for every reachable state and every time, each candidate
    potential lies in [0, 1.006). *)
Theorem candidate_overshoot_bounded :
  forall (n : nat) (st : Store) (t : R),
    reachable (euler default_dt)
              (mkStore (script_globals n) (LIF_init n)) st ->
    Forall (fun c => 0 <= c < 1 + 6 / 1000)
           (candidate (euler default_dt) st t).
Proof.
  intros n st t Hr.
  pose proof (reachable_range n st Hr) as HV.
  pose proof (reachable_globals _ _ _ Hr) as Hg; simpl in Hg.
  unfold candidate; rewrite euler_derivative, Hg.
  apply (Forall_zipWith (fun v => 0 <= v < 1) (fun d => 2 <= d <= 4));
    trivial; [|apply script_inputs_range].
  intros v d Hv Hd; simpl.
  pose proof (SIN_bound (2 * PI * t / 100)) as [Hs1 Hs2].
  unfold default_dt; split; lra.
Qed.

Lemma candidate_overshoot_bounded_witness :
  Forall (fun c => 0 <= c < 1 + 6 / 1000)
         (candidate (euler default_dt)
                    (update (euler default_dt)
                            (mkStore (script_globals 2) (LIF_init 2))
                            0 default_dt)
                    (1 / 10)).
Proof.
  apply (candidate_overshoot_bounded 2).
  apply reach_step, reach_init.
Defined.
